(** * Triton activation kernels: block partitioning, masking and lane formulas

    Shallow embedding of [src/triton_activations/functions.py].

    Each [@triton.jit] kernel is a program that runs once per unit of work
    (program id).  It computes a block of [BLOCK_SIZE] global indices, a
    validity mask, performs one masked vector load, evaluates the activation
    on the loaded block with element-wise tensor operations and performs one
    masked vector store.

    - Indices ([pid], [BLOCK_SIZE], [n_elements], offsets) are integers [Z].
      The kernels are embedded twice: first with the index arithmetic over
      the integers and every block width accepted, then, in [Module Int32],
      with the signed 32-bit wrap-around of the device and the shape check
      of [tl.arange].  The two agree where no index wraps and [tl.arange]
      accepts the width ([kernel_in_range]).
    - Device values are elements of a carrier [F] equipped with the scalar
      operations the kernels call ([FloatOps]).  The Triton and libdevice
      primitives are not part of the repository, so they are operations of the
      interface; the concrete IEEE binary32 instance is given in
      [Module Binary32].
    - Device memory holds the two buffers a kernel receives pointers to.  A
      lane access outside a buffer is a fault ([None]).  Every vector load and
      store is recorded in a trace together with the indices it touched. *)

From Stdlib Require Import ZArith QArith_base List Lia Permutation.
From Stdlib Require Import Floats.SpecFloat.
From stdpp Require Import base tactics option list list_numbers sets.

Local Open Scope Z_scope.

(** ** Scalar operations available on device values *)

Class FloatOps (F : Type) := {
  of_int : Z → F;                 (* promotion of an integer scalar *)
  flit : Q → F;                   (* a floating literal of the source *)
  fadd : F → F → F;
  fsub : F → F → F;
  fmul : F → F → F;
  fdiv : F → F → F;
  fneg : F → F;
  tl_maximum : F → F → F;
  tl_exp : F → F;
  tl_log : F → F;
  libdevice_tanh : F → F;
  libdevice_abs : F → F;
  libdevice_sqrt : F → F;
  libdevice_erf : F → F;
  libdevice_exp : F → F;
  libdevice_max : F → F → F
}.

(** ** Device memory, traces and the kernel monad *)

Inductive pointer := InputBuffer | OutputBuffer.

Inductive event :=
  | EvLoad (p : pointer) (indices : list Z)
  | EvStore (p : pointer) (indices : list Z).

Section Machine.
Context {F : Type} `{FloatOps F}.

Record memory := Memory { input_buffer : list F; output_buffer : list F }.

Definition deref (m : memory) (p : pointer) : list F :=
  match p with
  | InputBuffer => input_buffer m
  | OutputBuffer => output_buffer m
  end.

Definition assign (m : memory) (p : pointer) (l : list F) : memory :=
  match p with
  | InputBuffer => Memory l (output_buffer m)
  | OutputBuffer => Memory (input_buffer m) l
  end.

Record machine := Machine { mem : memory; trace : list event }.

(** A kernel body reads its program id and transforms the machine, or
    faults. *)
Definition prog (A : Type) : Type := Z → machine → option (A * machine).

Definition prog_ret {A} (a : A) : prog A := λ _ s, Some (a, s).

Definition prog_bind {A B} (c : prog A) (k : A → prog B) : prog B :=
  λ pid s, match c pid s with
           | Some (a, s') => k a pid s'
           | None => None
           end.

Notation "x <- c ;; k" := (prog_bind c (λ x, k))
  (at level 20, c at level 99, k at level 200, only parsing).

(** [tl.program_id(axis)]: the launch grid is one-dimensional. *)
Definition tl_program_id (axis : Z) : prog Z :=
  λ pid s, Some (if bool_decide (axis = 0) then pid else 0, s).

(** [tl.arange(lo, hi)] *)
Definition tl_arange (lo hi : Z) : list Z := seqZ lo (hi - lo).

(** ** Masked vector load and store

    Modelled from the spec: [tl.load] and [tl.store] are Triton primitives
    whose code is outside the repository.  Following the Masked I/O Adapter
    contract, a valid lane reads or writes the buffer element at its global
    index, an invalid lane loads the neutral value zero and stores nothing;
    a valid lane whose index is outside the buffer faults. *)
Definition load (buffer : list F) (globalIndex : Z) (valid : bool) : option F :=
  if valid then
    if bool_decide (0 ≤ globalIndex) then buffer !! Z.to_nat globalIndex else None
  else Some (of_int 0).

Definition store (buffer : list F) (globalIndex : Z) (value : F) (valid : bool)
  : option (list F) :=
  if valid then
    if bool_decide (0 ≤ globalIndex < Z.of_nat (length buffer))
    then Some (<[Z.to_nat globalIndex := value]> buffer) else None
  else Some buffer.

(** The index a lane touches: none when the lane is masked. *)
Definition lane_access (globalIndex : Z) (valid : bool) : list Z :=
  if valid then [globalIndex] else [].

Fixpoint load_lanes (buffer : list F) (offsets : list Z) (mask : list bool)
  : option (list F) :=
  match offsets, mask with
  | o :: os, m :: ms =>
      match load buffer o m with
      | Some v =>
          match load_lanes buffer os ms with
          | Some vs => Some (v :: vs)
          | None => None
          end
      | None => None
      end
  | _, _ => Some []
  end.

Fixpoint store_lanes (buffer : list F) (offsets : list Z) (values : list F)
    (mask : list bool) : option (list F) :=
  match offsets, values, mask with
  | o :: os, v :: vs, m :: ms =>
      match store buffer o v m with
      | Some buffer' => store_lanes buffer' os vs ms
      | None => None
      end
  | _, _, _ => Some buffer
  end.

Fixpoint valid_lanes (offsets : list Z) (mask : list bool) : list Z :=
  match offsets, mask with
  | o :: os, m :: ms => lane_access o m ++ valid_lanes os ms
  | _, _ => []
  end.

(** [tl.load(ptr + offsets, mask=mask)] *)
Definition tl_load (ptr : pointer) (offsets : list Z) (mask : list bool)
  : prog (list F) :=
  λ _ s,
    match load_lanes (deref (mem s) ptr) offsets mask with
    | Some vs =>
        Some (vs, Machine (mem s) (trace s ++ [EvLoad ptr (valid_lanes offsets mask)]))
    | None => None
    end.

(** [tl.store(ptr + offsets, values, mask=mask)] *)
Definition tl_store (ptr : pointer) (offsets : list Z) (values : list F)
    (mask : list bool) : prog unit :=
  λ _ s,
    match store_lanes (deref (mem s) ptr) offsets values mask with
    | Some buffer' =>
        Some (tt, Machine (assign (mem s) ptr buffer')
                    (trace s ++ [EvStore ptr (valid_lanes offsets mask)]))
    | None => None
    end.

(** The value the lane with global index [o] holds after the masked load of
    a block from [buffer], for the mask [o < n_elements]. *)
Definition lane_input (buffer : list F) (n_elements : Z) (o : Z) : F :=
  if bool_decide (o < n_elements)
  then default (of_int 0) (buffer !! Z.to_nat o) else of_int 0.

(** The valid global indices of the block of unit [pid]. *)
Definition block_indices (pid n_elements BLOCK_SIZE : Z) : list Z :=
  filter (λ o, o < n_elements) (seqZ (pid * BLOCK_SIZE) BLOCK_SIZE).

(** The events of one invocation on the two buffers: one load and one
    store, both touching exactly the valid indices of the block. *)
Definition unit_events (n_elements BLOCK_SIZE pid : Z) : list event :=
  [EvLoad InputBuffer (block_indices pid n_elements BLOCK_SIZE);
   EvStore OutputBuffer (block_indices pid n_elements BLOCK_SIZE)].

(** ** Element-wise tensor operations with scalar broadcasting *)
Definition unary (f : F → F) (x : list F) : list F := f <$> x.
Definition scalar_tensor (op : F → F → F) (c : F) (x : list F) : list F :=
  op c <$> x.
Definition tensor_scalar (op : F → F → F) (x : list F) (c : F) : list F :=
  (λ v, op v c) <$> x.
Definition tensor_tensor (op : F → F → F) (x y : list F) : list F :=
  zip_with op x y.

(** [block_start + tl.arange(0, BLOCK_SIZE)] and [offsets < n_elements] *)
Definition add_offsets (block_start : Z) (r : list Z) : list Z :=
  Z.add block_start <$> r.
Definition less_than (offsets : list Z) (n_elements : Z) : list bool :=
  (λ o, bool_decide (o < n_elements)) <$> offsets.

(** ** The kernels *)

Definition tanh_activation_kernel (x_ptr output_ptr : pointer)
    (n_elements BLOCK_SIZE : Z) : prog unit :=
  pid <- tl_program_id 0 ;;
  let block_start := pid * BLOCK_SIZE in
  let offsets := add_offsets block_start (tl_arange 0 BLOCK_SIZE) in
  let mask := less_than offsets n_elements in
  x <- tl_load x_ptr offsets mask ;;
  let output := unary libdevice_tanh x in
  tl_store output_ptr offsets output mask.

Definition relu_activation_kernel (x_ptr output_ptr : pointer)
    (n_elements BLOCK_SIZE : Z) : prog unit :=
  pid <- tl_program_id 0 ;;
  let block_start := pid * BLOCK_SIZE in
  let offsets := add_offsets block_start (tl_arange 0 BLOCK_SIZE) in
  let mask := less_than offsets n_elements in
  x <- tl_load x_ptr offsets mask ;;
  let output := scalar_tensor tl_maximum (of_int 0) x in
  tl_store output_ptr offsets output mask.

Definition softplus_activation_kernel (x_ptr output_ptr : pointer)
    (n_elements BLOCK_SIZE : Z) : prog unit :=
  pid <- tl_program_id 0 ;;
  let block_start := pid * BLOCK_SIZE in
  let offsets := add_offsets block_start (tl_arange 0 BLOCK_SIZE) in
  let mask := less_than offsets n_elements in
  x <- tl_load x_ptr offsets mask ;;
  let output := unary tl_log (scalar_tensor fadd (of_int 1) (unary tl_exp x)) in
  tl_store output_ptr offsets output mask.

Definition softsign_activation_kernel (x_ptr output_ptr : pointer)
    (n_elements BLOCK_SIZE : Z) : prog unit :=
  pid <- tl_program_id 0 ;;
  let block_start := pid * BLOCK_SIZE in
  let offsets := add_offsets block_start (tl_arange 0 BLOCK_SIZE) in
  let mask := less_than offsets n_elements in
  x <- tl_load x_ptr offsets mask ;;
  let output :=
    tensor_tensor fdiv x (tensor_scalar fadd (unary libdevice_abs x) (of_int 1)) in
  tl_store output_ptr offsets output mask.

Definition sigmoid_activation_kernel (x_ptr output_ptr : pointer)
    (n_elements BLOCK_SIZE : Z) : prog unit :=
  pid <- tl_program_id 0 ;;
  let block_start := pid * BLOCK_SIZE in
  let offsets := add_offsets block_start (tl_arange 0 BLOCK_SIZE) in
  let mask := less_than offsets n_elements in
  x <- tl_load x_ptr offsets mask ;;
  let output :=
    scalar_tensor fdiv (of_int 1)
      (scalar_tensor fadd (of_int 1) (unary tl_exp (unary fneg x))) in
  tl_store output_ptr offsets output mask.

Definition silu_activation_kernel (x_ptr output_ptr : pointer)
    (n_elements BLOCK_SIZE : Z) : prog unit :=
  pid <- tl_program_id 0 ;;
  let block_start := pid * BLOCK_SIZE in
  let offsets := add_offsets block_start (tl_arange 0 BLOCK_SIZE) in
  let mask := less_than offsets n_elements in
  x <- tl_load x_ptr offsets mask ;;
  let output :=
    tensor_tensor fmul x
      (scalar_tensor fdiv (of_int 1)
         (scalar_tensor fadd (of_int 1) (unary tl_exp (unary fneg x)))) in
  tl_store output_ptr offsets output mask.

(** The literal [3.141592653589793] of the source. *)
Definition pi_literal : Q := 3141592653589793 # 1000000000000000.

Definition gelu_activation_kernel (x_ptr output_ptr : pointer)
    (approximation : bool) (n_elements BLOCK_SIZE : Z) : prog unit :=
  pid <- tl_program_id 0 ;;
  let block_start := pid * BLOCK_SIZE in
  let offsets := add_offsets block_start (tl_arange 0 BLOCK_SIZE) in
  let mask := less_than offsets n_elements in
  x <- tl_load x_ptr offsets mask ;;
  if bool_decide (approximation = true) then
    let output :=
      tensor_tensor fmul
        (scalar_tensor fmul (flit (1 # 2)) x)
        (scalar_tensor fadd (of_int 1)
           (unary libdevice_tanh
              (scalar_tensor fmul
                 (libdevice_sqrt (fdiv (flit (2 # 1)) (flit pi_literal)))
                 (tensor_tensor fadd x
                    (tensor_tensor fmul
                       (tensor_tensor fmul
                          (scalar_tensor fmul (flit (44715 # 1000000)) x) x)
                       x))))) in
    tl_store output_ptr offsets output mask
  else
    let output :=
      tensor_tensor fmul
        (tensor_scalar fmul x (flit (1 # 2)))
        (scalar_tensor fadd (flit (1 # 1))
           (unary libdevice_erf
              (tensor_scalar fdiv x (libdevice_sqrt (flit (2 # 1)))))) in
    tl_store output_ptr offsets output mask.

Definition softmax_activation_kernel (x_ptr output_ptr : pointer)
    (axis_ld : Z) (n_elements BLOCK_SIZE : Z) : prog unit :=
  pid <- tl_program_id 0 ;;
  let block_start := pid * BLOCK_SIZE in
  let offsets := add_offsets block_start (tl_arange 0 BLOCK_SIZE) in
  let mask := less_than offsets n_elements in
  x <- tl_load x_ptr offsets mask ;;
  let max_x := tensor_scalar libdevice_max x (of_int axis_ld) in
  let x := tensor_tensor fsub x max_x in
  let exp_x := unary libdevice_exp x in
  let sum_exp_x := tensor_scalar fadd exp_x (of_int axis_ld) in
  let output := tensor_tensor fdiv exp_x sum_exp_x in
  tl_store output_ptr offsets output mask.

(** ** Per-lane reading of the kernels

    What one lane of the block computes from the value it loaded.  The
    lemmas [*_block] below derive these from the tensor expressions of the
    kernels. *)

Definition tanh_lane (x : F) : F := libdevice_tanh x.

Definition relu_lane (x : F) : F := tl_maximum (of_int 0) x.

Definition softplus_lane (x : F) : F := tl_log (fadd (of_int 1) (tl_exp x)).

Definition softsign_lane (x : F) : F := fdiv x (fadd (libdevice_abs x) (of_int 1)).

Definition sigmoid_lane (x : F) : F :=
  fdiv (of_int 1) (fadd (of_int 1) (tl_exp (fneg x))).

Definition silu_lane (x : F) : F :=
  fmul x (fdiv (of_int 1) (fadd (of_int 1) (tl_exp (fneg x)))).

Definition gelu_tanh_lane (x : F) : F :=
  fmul (fmul (flit (1 # 2)) x)
    (fadd (of_int 1)
       (libdevice_tanh
          (fmul (libdevice_sqrt (fdiv (flit (2 # 1)) (flit pi_literal)))
             (fadd x (fmul (fmul (fmul (flit (44715 # 1000000)) x) x) x))))).

Definition gelu_erf_lane (x : F) : F :=
  fmul (fmul x (flit (1 # 2)))
    (fadd (flit (1 # 1)) (libdevice_erf (fdiv x (libdevice_sqrt (flit (2 # 1)))))).

Definition gelu_lane (approximation : bool) (x : F) : F :=
  if approximation then gelu_tanh_lane x else gelu_erf_lane x.

Definition softmax_lane (axis_ld : Z) (x : F) : F :=
  let max_x := libdevice_max x (of_int axis_ld) in
  let exp_x := libdevice_exp (fsub x max_x) in
  fdiv exp_x (fadd exp_x (of_int axis_ld)).

(** The common shape of all kernels: partition, masked load, one lane
    function, masked store. *)
Definition lanewise (f : F → F) (x_ptr output_ptr : pointer)
    (n_elements BLOCK_SIZE : Z) : prog unit :=
  pid <- tl_program_id 0 ;;
  let block_start := pid * BLOCK_SIZE in
  let offsets := add_offsets block_start (tl_arange 0 BLOCK_SIZE) in
  let mask := less_than offsets n_elements in
  x <- tl_load x_ptr offsets mask ;;
  tl_store output_ptr offsets (f <$> x) mask.

(** ** The activation kinds and the host-side launch *)

(** Modelled from the spec: the closed enumeration [ActivationKind] with the
    kind-specific scalars of the configuration (GELU's flag, softmax's axis
    length). *)
Inductive ActivationKind :=
  | Tanh | ReLU | Softplus | Softsign | Sigmoid | SiLU
  | GELU (approximate : bool)
  | Softmax (axisLength : Z).

Definition kernel_of (kind : ActivationKind) (x_ptr output_ptr : pointer)
    (n_elements BLOCK_SIZE : Z) : prog unit :=
  match kind with
  | Tanh => tanh_activation_kernel x_ptr output_ptr n_elements BLOCK_SIZE
  | ReLU => relu_activation_kernel x_ptr output_ptr n_elements BLOCK_SIZE
  | Softplus => softplus_activation_kernel x_ptr output_ptr n_elements BLOCK_SIZE
  | Softsign => softsign_activation_kernel x_ptr output_ptr n_elements BLOCK_SIZE
  | Sigmoid => sigmoid_activation_kernel x_ptr output_ptr n_elements BLOCK_SIZE
  | SiLU => silu_activation_kernel x_ptr output_ptr n_elements BLOCK_SIZE
  | GELU a => gelu_activation_kernel x_ptr output_ptr a n_elements BLOCK_SIZE
  | Softmax axis_ld =>
      softmax_activation_kernel x_ptr output_ptr axis_ld n_elements BLOCK_SIZE
  end.

Definition lane_of (kind : ActivationKind) : F → F :=
  match kind with
  | Tanh => tanh_lane
  | ReLU => relu_lane
  | Softplus => softplus_lane
  | Softsign => softsign_lane
  | Sigmoid => sigmoid_lane
  | SiLU => silu_lane
  | GELU a => gelu_lane a
  | Softmax axis_ld => softmax_lane axis_ld
  end.

(** Running a kernel once for each unit id of a schedule, in the order of
    the schedule. *)
Fixpoint run_units (k : prog unit) (units : list Z) (s : machine) : option machine :=
  match units with
  | [] => Some s
  | pid :: rest =>
      match k pid s with
      | Some (_, s') => run_units k rest s'
      | None => None
      end
  end.

(** [ceil(n / b)] *)
Definition cdiv (n b : Z) : Z := (n + b - 1) `div` b.

(** Modelled from the spec: the host-side Dispatch Loop is outside the
    repository; it launches one invocation per unit id in
    [[0, ceil(elementCount / blockWidth))], passing [elementCount] unchanged. *)
Definition grid (elementCount blockWidth : Z) : list Z :=
  seqZ 0 (cdiv elementCount blockWidth).

(** Indices read and written according to a trace. *)
Definition loads_of (tr : list event) : list Z :=
  tr ≫= λ ev, match ev with EvLoad _ idx => idx | EvStore _ _ => [] end.

Definition stores_of (tr : list event) : list Z :=
  tr ≫= λ ev, match ev with EvStore _ idx => idx | EvLoad _ _ => [] end.



End Machine.

(** ** The kernels with 32-bit index arithmetic

    The definitions above compute indices as mathematical integers and accept
    every block width.  On the device the program id, [tl.arange] and the
    offsets are signed 32-bit integers, so [pid * BLOCK_SIZE] and
    [block_start + tl.arange(0, BLOCK_SIZE)] wrap around, and [tl.arange]
    raises unless its range is a power of two within the block size limit of
    the library.  This module embeds the eight
    kernels once more with these two effects written out; an invocation that
    raises, like one that accesses an index outside a buffer, has no result
    ([None]).  Lemma [kernel_in_range] shows that both embeddings agree
    whenever [tl.arange] accepts the width and the block of the unit ends at
    or below [2^31]. *)
Module Int32.
Section Kernels.
Context {F : Type} `{FloatOps F}.

Notation "x <- c ;; k" := (prog_bind c (λ x, k))
  (at level 20, c at level 99, k at level 200, only parsing).

(** The signed 32-bit value of an integer. *)
Definition wrap (z : Z) : Z := (z + 2 ^ 31) `mod` 2 ^ 32 - 2 ^ 31.

Definition mul (a b : Z) : Z := wrap (a * b).
Definition add (a b : Z) : Z := wrap (a + b).

Definition is_power_of_two (n : Z) : bool := (0 <? n) && (Z.land n (n - 1) =? 0).

(** The largest number of elements of a block in the Triton releases that
    provide [tl.libdevice]. *)
Definition TRITON_MAX_TENSOR_NUMEL : Z := 131072.

(** The block shapes [tl.arange] accepts. *)
Definition valid_block_shape (n : Z) : bool :=
  is_power_of_two n && (n <=? TRITON_MAX_TENSOR_NUMEL).

(** [tl.arange(lo, hi)]: raises unless [hi - lo] is a power of two within the
    block size limit. *)
Definition tl_arange (lo hi : Z) : @prog F (list Z) :=
  λ _ s, if valid_block_shape (hi - lo) then Some (seqZ lo (hi - lo), s) else None.

(** [block_start + tl.arange(0, BLOCK_SIZE)] on 32-bit integers. *)
Definition add_offsets (block_start : Z) (r : list Z) : list Z :=
  add block_start <$> r.

Definition tanh_activation_kernel (x_ptr output_ptr : pointer)
    (n_elements BLOCK_SIZE : Z) : @prog F unit :=
  pid <- tl_program_id 0 ;;
  let block_start := mul pid BLOCK_SIZE in
  r <- tl_arange 0 BLOCK_SIZE ;;
  let offsets := add_offsets block_start r in
  let mask := less_than offsets n_elements in
  x <- tl_load x_ptr offsets mask ;;
  let output := unary libdevice_tanh x in
  tl_store output_ptr offsets output mask.

Definition relu_activation_kernel (x_ptr output_ptr : pointer)
    (n_elements BLOCK_SIZE : Z) : @prog F unit :=
  pid <- tl_program_id 0 ;;
  let block_start := mul pid BLOCK_SIZE in
  r <- tl_arange 0 BLOCK_SIZE ;;
  let offsets := add_offsets block_start r in
  let mask := less_than offsets n_elements in
  x <- tl_load x_ptr offsets mask ;;
  let output := scalar_tensor tl_maximum (of_int 0) x in
  tl_store output_ptr offsets output mask.

Definition softplus_activation_kernel (x_ptr output_ptr : pointer)
    (n_elements BLOCK_SIZE : Z) : @prog F unit :=
  pid <- tl_program_id 0 ;;
  let block_start := mul pid BLOCK_SIZE in
  r <- tl_arange 0 BLOCK_SIZE ;;
  let offsets := add_offsets block_start r in
  let mask := less_than offsets n_elements in
  x <- tl_load x_ptr offsets mask ;;
  let output := unary tl_log (scalar_tensor fadd (of_int 1) (unary tl_exp x)) in
  tl_store output_ptr offsets output mask.

Definition softsign_activation_kernel (x_ptr output_ptr : pointer)
    (n_elements BLOCK_SIZE : Z) : @prog F unit :=
  pid <- tl_program_id 0 ;;
  let block_start := mul pid BLOCK_SIZE in
  r <- tl_arange 0 BLOCK_SIZE ;;
  let offsets := add_offsets block_start r in
  let mask := less_than offsets n_elements in
  x <- tl_load x_ptr offsets mask ;;
  let output :=
    tensor_tensor fdiv x (tensor_scalar fadd (unary libdevice_abs x) (of_int 1)) in
  tl_store output_ptr offsets output mask.

Definition sigmoid_activation_kernel (x_ptr output_ptr : pointer)
    (n_elements BLOCK_SIZE : Z) : @prog F unit :=
  pid <- tl_program_id 0 ;;
  let block_start := mul pid BLOCK_SIZE in
  r <- tl_arange 0 BLOCK_SIZE ;;
  let offsets := add_offsets block_start r in
  let mask := less_than offsets n_elements in
  x <- tl_load x_ptr offsets mask ;;
  let output :=
    scalar_tensor fdiv (of_int 1)
      (scalar_tensor fadd (of_int 1) (unary tl_exp (unary fneg x))) in
  tl_store output_ptr offsets output mask.

Definition silu_activation_kernel (x_ptr output_ptr : pointer)
    (n_elements BLOCK_SIZE : Z) : @prog F unit :=
  pid <- tl_program_id 0 ;;
  let block_start := mul pid BLOCK_SIZE in
  r <- tl_arange 0 BLOCK_SIZE ;;
  let offsets := add_offsets block_start r in
  let mask := less_than offsets n_elements in
  x <- tl_load x_ptr offsets mask ;;
  let output :=
    tensor_tensor fmul x
      (scalar_tensor fdiv (of_int 1)
         (scalar_tensor fadd (of_int 1) (unary tl_exp (unary fneg x)))) in
  tl_store output_ptr offsets output mask.

Definition gelu_activation_kernel (x_ptr output_ptr : pointer)
    (approximation : bool) (n_elements BLOCK_SIZE : Z) : @prog F unit :=
  pid <- tl_program_id 0 ;;
  let block_start := mul pid BLOCK_SIZE in
  r <- tl_arange 0 BLOCK_SIZE ;;
  let offsets := add_offsets block_start r in
  let mask := less_than offsets n_elements in
  x <- tl_load x_ptr offsets mask ;;
  if bool_decide (approximation = true) then
    let output :=
      tensor_tensor fmul
        (scalar_tensor fmul (flit (1 # 2)) x)
        (scalar_tensor fadd (of_int 1)
           (unary libdevice_tanh
              (scalar_tensor fmul
                 (libdevice_sqrt (fdiv (flit (2 # 1)) (flit pi_literal)))
                 (tensor_tensor fadd x
                    (tensor_tensor fmul
                       (tensor_tensor fmul
                          (scalar_tensor fmul (flit (44715 # 1000000)) x) x)
                       x))))) in
    tl_store output_ptr offsets output mask
  else
    let output :=
      tensor_tensor fmul
        (tensor_scalar fmul x (flit (1 # 2)))
        (scalar_tensor fadd (flit (1 # 1))
           (unary libdevice_erf
              (tensor_scalar fdiv x (libdevice_sqrt (flit (2 # 1)))))) in
    tl_store output_ptr offsets output mask.

Definition softmax_activation_kernel (x_ptr output_ptr : pointer)
    (axis_ld : Z) (n_elements BLOCK_SIZE : Z) : @prog F unit :=
  pid <- tl_program_id 0 ;;
  let block_start := mul pid BLOCK_SIZE in
  r <- tl_arange 0 BLOCK_SIZE ;;
  let offsets := add_offsets block_start r in
  let mask := less_than offsets n_elements in
  x <- tl_load x_ptr offsets mask ;;
  let max_x := tensor_scalar libdevice_max x (of_int axis_ld) in
  let x := tensor_tensor fsub x max_x in
  let exp_x := unary libdevice_exp x in
  let sum_exp_x := tensor_scalar fadd exp_x (of_int axis_ld) in
  let output := tensor_tensor fdiv exp_x sum_exp_x in
  tl_store output_ptr offsets output mask.

Definition kernel_of (kind : ActivationKind) (x_ptr output_ptr : pointer)
    (n_elements BLOCK_SIZE : Z) : @prog F unit :=
  match kind with
  | Tanh => tanh_activation_kernel x_ptr output_ptr n_elements BLOCK_SIZE
  | ReLU => relu_activation_kernel x_ptr output_ptr n_elements BLOCK_SIZE
  | Softplus => softplus_activation_kernel x_ptr output_ptr n_elements BLOCK_SIZE
  | Softsign => softsign_activation_kernel x_ptr output_ptr n_elements BLOCK_SIZE
  | Sigmoid => sigmoid_activation_kernel x_ptr output_ptr n_elements BLOCK_SIZE
  | SiLU => silu_activation_kernel x_ptr output_ptr n_elements BLOCK_SIZE
  | GELU a => gelu_activation_kernel x_ptr output_ptr a n_elements BLOCK_SIZE
  | Softmax axis_ld =>
      softmax_activation_kernel x_ptr output_ptr axis_ld n_elements BLOCK_SIZE
  end.

End Kernels.
End Int32.

Section Dispatch.
Context {F : Type} `{FloatOps F}.

(** Modelled from the spec: the evaluation entry point of the host side.  A
    non-positive block width or input and output buffers of different
    lengths are rejected before any unit runs; otherwise the kernel is
    invoked once per unit id of the grid, in increasing order. *)
Definition evaluate (kind : ActivationKind) (elementCount blockWidth : Z)
    (s : @machine F) : option (@machine F) :=
  if bool_decide (0 < blockWidth)
     && bool_decide (length (input_buffer (mem s)) = length (output_buffer (mem s)))
  then run_units (Int32.kernel_of kind InputBuffer OutputBuffer elementCount blockWidth)
         (grid elementCount blockWidth) s
  else None.

End Dispatch.

(** ** The IEEE binary32 instance

    Device values are 32-bit floats.  The arithmetic is the IEEE 754
    specification of the standard library ([SpecFloat]) at precision 24 and
    maximal exponent 128.  The transcendental functions of the device math
    library stay a parameter ([mathlib]). *)
Module Binary32.

Definition prec : Z := 24.
Definition emax : Z := 128.

Definition float32 : Type := spec_float.

Definition of_Z (z : Z) : float32 := binary_normalize prec emax z 0 false.

Definition add : float32 → float32 → float32 := SFadd prec emax.
Definition sub : float32 → float32 → float32 := SFsub prec emax.
Definition mul : float32 → float32 → float32 := SFmul prec emax.
Definition div : float32 → float32 → float32 := SFdiv prec emax.
Definition sqrt : float32 → float32 := SFsqrt prec emax.

(** A literal [n/d]: the rounded quotient of the rounded numerator and
    denominator (exact for the literals [0.5], [1.0] and [2.0]). *)
Definition of_Q (q : Q) : float32 := div (of_Z (Qnum q)) (of_Z (Zpos (Qden q))).

(** [tl.maximum(x, y)] selects [x] where [x > y] and [y] elsewhere. *)
Definition maximum (x y : float32) : float32 := if SFltb y x then x else y.

(** [fmaxf]: a NaN operand yields the other operand. *)
Definition fmaxf (x y : float32) : float32 :=
  match x, y with
  | S754_nan, _ => y
  | _, S754_nan => x
  | _, _ => if SFltb x y then y else x
  end.

Record mathlib := MathLib {
  m_fast_exp : float32 → float32;   (* tl.exp *)
  m_log : float32 → float32;        (* tl.log *)
  m_tanh : float32 → float32;       (* libdevice tanh *)
  m_erf : float32 → float32;        (* libdevice erf *)
  m_exp : float32 → float32         (* libdevice exp *)
}.

Definition ops (L : mathlib) : FloatOps float32 := {|
  of_int := of_Z;
  flit := of_Q;
  fadd := add;
  fsub := sub;
  fmul := mul;
  fdiv := div;
  fneg := SFopp;
  tl_maximum := maximum;
  tl_exp := m_fast_exp L;
  tl_log := m_log L;
  libdevice_tanh := m_tanh L;
  libdevice_abs := SFabs;
  libdevice_sqrt := sqrt;
  libdevice_erf := m_erf L;
  libdevice_exp := m_exp L;
  libdevice_max := fmaxf
|}.

(** Low-order polynomial stand-ins, enough to run every kernel on concrete
    buffers. *)
Definition poly_exp (x : float32) : float32 :=
  add (add (of_Z 1) x) (div (mul x x) (of_Z 2)).

Definition poly_log (x : float32) : float32 :=
  let y := sub x (of_Z 1) in sub y (div (mul y y) (of_Z 2)).

Definition poly_tanh (x : float32) : float32 :=
  sub x (div (mul (mul x x) x) (of_Z 3)).

Definition poly_erf (x : float32) : float32 :=
  mul (div (of_Z 2) (sqrt (of_Q pi_literal))) x.

Definition poly_mathlib : mathlib := MathLib poly_exp poly_log poly_tanh poly_erf poly_exp.

(** Sum of the values of one axis, accumulated from the left. *)
Definition axis_sum (values : list float32) : float32 :=
  fold_left add values (of_Z 0).

End Binary32.

(** * Properties *)

Section KernelFacts.
Context {F : Type} `{FloatOps F}.

Implicit Types (x : list F) (inp out : list F) (offs : list Z) (tr : list event).

(** ** From tensor expressions to lane functions *)

Ltac by_lanes :=
  let x := fresh "x" in
  intros x; induction x as [|? ? IH]; [reflexivity|];
  cbn -[of_int flit fadd fsub fmul fdiv]; f_equal; exact IH.

Lemma tanh_block : ∀ x, unary libdevice_tanh x = tanh_lane <$> x.
Proof. by_lanes. Qed.

Lemma relu_block : ∀ x, scalar_tensor tl_maximum (of_int 0) x = relu_lane <$> x.
Proof. by_lanes. Qed.

Lemma softplus_block :
  ∀ x, unary tl_log (scalar_tensor fadd (of_int 1) (unary tl_exp x)) = softplus_lane <$> x.
Proof. by_lanes. Qed.

Lemma softsign_block :
  ∀ x, tensor_tensor fdiv x (tensor_scalar fadd (unary libdevice_abs x) (of_int 1))
       = softsign_lane <$> x.
Proof. by_lanes. Qed.

Lemma sigmoid_block :
  ∀ x, scalar_tensor fdiv (of_int 1)
         (scalar_tensor fadd (of_int 1) (unary tl_exp (unary fneg x)))
       = sigmoid_lane <$> x.
Proof. by_lanes. Qed.

Lemma silu_block :
  ∀ x, tensor_tensor fmul x
         (scalar_tensor fdiv (of_int 1)
            (scalar_tensor fadd (of_int 1) (unary tl_exp (unary fneg x))))
       = silu_lane <$> x.
Proof. by_lanes. Qed.

Lemma gelu_tanh_block :
  ∀ x, tensor_tensor fmul
         (scalar_tensor fmul (flit (1 # 2)) x)
         (scalar_tensor fadd (of_int 1)
            (unary libdevice_tanh
               (scalar_tensor fmul
                  (libdevice_sqrt (fdiv (flit (2 # 1)) (flit pi_literal)))
                  (tensor_tensor fadd x
                     (tensor_tensor fmul
                        (tensor_tensor fmul
                           (scalar_tensor fmul (flit (44715 # 1000000)) x) x)
                        x)))))
       = gelu_tanh_lane <$> x.
Proof. by_lanes. Qed.

Lemma gelu_erf_block :
  ∀ x, tensor_tensor fmul
         (tensor_scalar fmul x (flit (1 # 2)))
         (scalar_tensor fadd (flit (1 # 1))
            (unary libdevice_erf
               (tensor_scalar fdiv x (libdevice_sqrt (flit (2 # 1))))))
       = gelu_erf_lane <$> x.
Proof. by_lanes. Qed.

Lemma softmax_block axis_ld :
  ∀ x, (let max_x := tensor_scalar libdevice_max x (of_int axis_ld) in
        let x' := tensor_tensor fsub x max_x in
        let exp_x := unary libdevice_exp x' in
        let sum_exp_x := tensor_scalar fadd exp_x (of_int axis_ld) in
        tensor_tensor fdiv exp_x sum_exp_x)
       = softmax_lane axis_ld <$> x.
Proof. by_lanes. Qed.

(** Every kernel is the common block scheme around its lane function. *)
Lemma kernel_lanewise kind x_ptr output_ptr n B pid (s : machine) :
  kernel_of kind x_ptr output_ptr n B pid s
  = lanewise (lane_of kind) x_ptr output_ptr n B pid s.
Proof.
  destruct kind as [| | | | | |a|axis_ld]; cbn [kernel_of lane_of];
    unfold tanh_activation_kernel, relu_activation_kernel,
      softplus_activation_kernel, softsign_activation_kernel,
      sigmoid_activation_kernel, silu_activation_kernel,
      gelu_activation_kernel, softmax_activation_kernel, lanewise, prog_bind;
    cbn [tl_program_id];
    match goal with |- context [tl_load ?p ?o ?m pid s] =>
      destruct (tl_load p o m pid s) as [[x s']|]; [|reflexivity] end.
  - by rewrite tanh_block.
  - by rewrite relu_block.
  - by rewrite softplus_block.
  - by rewrite softsign_block.
  - by rewrite sigmoid_block.
  - by rewrite silu_block.
  - destruct a; cbn [bool_decide decide_rel]; unfold gelu_lane.
    + rewrite bool_decide_eq_true_2 by done. by rewrite gelu_tanh_block.
    + rewrite bool_decide_eq_false_2 by done. by rewrite gelu_erf_block.
  - by rewrite <- softmax_block.
Qed.

(** ** Masked vector accesses of a block *)

Lemma if_bool_decide_ext {A} (P Q : Prop) `{!Decision P, !Decision Q} (a b : A) :
  (P ↔ Q) → (if bool_decide P then a else b) = (if bool_decide Q then a else b).
Proof. intros HPQ. by rewrite (bool_decide_ext P Q). Qed.

Lemma valid_lanes_filter offs n :
  valid_lanes offs (less_than offs n) = filter (λ o, o < n) offs.
Proof.
  induction offs as [|o offs IH]; [reflexivity|].
  cbn [less_than fmap list_fmap valid_lanes]. fold (less_than offs n). rewrite IH.
  rewrite filter_cons. unfold lane_access.
  case_bool_decide; case_decide; done || lia.
Qed.

Lemma load_lanes_fmap inp n offs :
  (∀ o, o ∈ offs → 0 ≤ o) → n ≤ Z.of_nat (length inp) →
  load_lanes inp offs (less_than offs n) = Some (lane_input inp n <$> offs).
Proof.
  intros Hpos Hn. induction offs as [|o offs IH]; [reflexivity|].
  cbn [less_than fmap list_fmap load_lanes]. fold (less_than offs n).
  fold (fmap (M:=list) (lane_input inp n) offs).
  rewrite IH by (intros; apply Hpos; by right).
  assert (0 ≤ o) by (apply Hpos; by left).
  unfold load, lane_input. case_bool_decide; [|reflexivity].
  rewrite bool_decide_eq_true_2 by done.
  destruct (lookup_lt_is_Some_2 inp (Z.to_nat o)) as [v Hv]; [lia|].
  by rewrite Hv.
Qed.

Lemma store_lanes_fmap out n offs (g : Z → F) :
  (∀ o, o ∈ offs → 0 ≤ o) → n ≤ Z.of_nat (length out) →
  ∃ out', store_lanes out offs (g <$> offs) (less_than offs n) = Some out'
          ∧ length out' = length out
          ∧ ∀ j : nat, out' !! j =
              if bool_decide (Z.of_nat j ∈ offs ∧ Z.of_nat j < n)
              then Some (g (Z.of_nat j)) else out !! j.
Proof.
  revert out. induction offs as [|o offs IH]; intros out Hpos Hn.
  { exists out. split_and!; [done..|]. intros j.
    rewrite bool_decide_eq_false_2; [done|]. intros [Hj _]. inversion Hj. }
  cbn [less_than fmap list_fmap store_lanes].
  fold (less_than offs n). fold (fmap (M:=list) g offs).
  assert (0 ≤ o) as Ho by (apply Hpos; by left).
  assert (∀ o', o' ∈ offs → 0 ≤ o') as Hpos' by (intros; apply Hpos; by right).
  unfold store. destruct (bool_decide (o < n)) eqn:Hv.
  - apply bool_decide_eq_true in Hv.
    rewrite bool_decide_eq_true_2 by lia.
    destruct (IH (<[Z.to_nat o := g o]> out) Hpos') as (out' & Hrun & Hlen & Hget).
    { rewrite length_insert. lia. }
    exists out'. split_and!; [done| by rewrite Hlen, length_insert |].
    intros j. rewrite Hget.
    destruct (decide (Z.of_nat j = o)) as [<-|Hne].
    + rewrite Nat2Z.id, list_lookup_insert_eq by lia.
      rewrite (bool_decide_eq_true_2 (_ ∈ _ :: _ ∧ _)) by (split; [by left|done]).
      by case_bool_decide.
    + rewrite list_lookup_insert_ne by lia.
      apply if_bool_decide_ext. rewrite elem_of_cons. tauto.
  - apply bool_decide_eq_false in Hv.
    destruct (IH out Hpos' Hn) as (out' & Hrun & Hlen & Hget).
    exists out'. split_and!; [done..|].
    intros j. rewrite Hget.
    apply if_bool_decide_ext. rewrite elem_of_cons. intuition lia.
Qed.

(** ** One invocation *)

Lemma block_offsets pid B :
  add_offsets (pid * B) (tl_arange 0 B) = seqZ (pid * B) B.
Proof.
  unfold add_offsets, tl_arange.
  by rewrite Z.sub_0_r, fmap_add_seqZ, Z.add_0_r.
Qed.

Lemma program_id_axis0 pid (s : @machine F) : tl_program_id 0 pid s = Some (pid, s).
Proof. reflexivity. Qed.

Lemma block_owner j pid B :
  0 < B → (pid * B ≤ j < pid * B + B ↔ j `div` B = pid).
Proof.
  intros HB. split.
  - intros Hj. symmetry. apply (Z.div_unique j B pid (j - pid * B)); lia.
  - intros <-. pose proof (Z.div_mod j B). pose proof (Z.mod_pos_bound j B). lia.
Qed.

Lemma lanewise_run (f : F → F) n B pid inp out tr :
  0 ≤ pid → 0 ≤ B → Z.of_nat (length inp) = n → length out = length inp →
  ∃ out',
    lanewise f InputBuffer OutputBuffer n B pid (Machine (Memory inp out) tr)
    = Some (tt, Machine (Memory inp out') (tr ++ unit_events n B pid))
    ∧ length out' = length out
    ∧ ∀ j : nat, out' !! j =
        if bool_decide (pid * B ≤ Z.of_nat j < pid * B + B)
        then f <$> inp !! j else out !! j.
Proof.
  intros Hpid HB Hn Hlen.
  assert (∀ o, o ∈ seqZ (pid * B) B → 0 ≤ o) as Hpos.
  { intros o Ho%elem_of_seqZ. nia. }
  destruct (store_lanes_fmap out n (seqZ (pid * B) B) (f ∘ lane_input inp n))
    as (out' & Hrun & Hlen' & Hget); [done|lia|].
  exists out'. split_and!; [|done|].
  - unfold lanewise, prog_bind. rewrite program_id_axis0.
    unfold tl_load, tl_store. cbn.
    rewrite block_offsets.
    rewrite load_lanes_fmap by (done || lia).
    cbn. rewrite <- list_fmap_compose, Hrun.
    rewrite valid_lanes_filter. unfold unit_events, block_indices.
    by rewrite <- app_assoc.
  - intros j. rewrite Hget.
    pose proof (elem_of_seqZ (pid * B) B (Z.of_nat j)) as Hel.
    destruct (decide (Z.of_nat j < n)) as [Hj|Hj].
    + destruct (lookup_lt_is_Some_2 inp j) as [v Hv]; [lia|].
      assert ((f ∘ lane_input inp n) (Z.of_nat j) = f v) as ->.
      { cbn. unfold lane_input. rewrite bool_decide_eq_true_2 by done.
        by rewrite Nat2Z.id, Hv. }
      rewrite Hv. cbn.
      destruct (decide (pid * B ≤ Z.of_nat j < pid * B + B)) as [Hb|Hb].
      * rewrite !bool_decide_eq_true_2; [done..|]. by split; [apply Hel|].
      * rewrite !bool_decide_eq_false_2; [done..|]. intros [Hj' _]. by apply Hel in Hj'.
    + rewrite bool_decide_eq_false_2 by lia.
      rewrite (lookup_ge_None_2 inp j) by lia.
      rewrite (lookup_ge_None_2 out j) by lia.
      by case_bool_decide.
Qed.

Lemma kernel_run kind n B pid inp out tr :
  0 ≤ pid → 0 ≤ B → Z.of_nat (length inp) = n → length out = length inp →
  ∃ out',
    kernel_of kind InputBuffer OutputBuffer n B pid (Machine (Memory inp out) tr)
    = Some (tt, Machine (Memory inp out') (tr ++ unit_events n B pid))
    ∧ length out' = length out
    ∧ ∀ j : nat, out' !! j =
        if bool_decide (pid * B ≤ Z.of_nat j < pid * B + B)
        then lane_of kind <$> inp !! j else out !! j.
Proof. intros. rewrite kernel_lanewise. by apply lanewise_run. Qed.

(** A single block that is at least as wide as the buffer computes the
    whole output in unit 0. *)
Lemma kernel_run_whole kind n B inp out tr :
  0 < B → n ≤ B → Z.of_nat (length inp) = n → length out = length inp →
  kernel_of kind InputBuffer OutputBuffer n B 0 (Machine (Memory inp out) tr)
  = Some (tt, Machine (Memory inp (lane_of kind <$> inp)) (tr ++ unit_events n B 0)).
Proof.
  intros HB HnB Hn Hlen.
  destruct (kernel_run kind n B 0 inp out tr) as (out' & -> & Hlen' & Hget);
    [lia..|done|done|].
  do 4 f_equal. apply list_eq. intros j.
  rewrite Hget, list_lookup_fmap.
  destruct (decide (Z.of_nat j < n)) as [Hj|Hj].
  - by rewrite bool_decide_eq_true_2 by lia.
  - rewrite (lookup_ge_None_2 inp j), (lookup_ge_None_2 out j) by lia.
    by case_bool_decide.
Qed.

(** ** A schedule of invocations *)

Lemma run_units_kernel kind n B units inp out tr :
  (∀ pid, pid ∈ units → 0 ≤ pid) → 0 < B →
  Z.of_nat (length inp) = n → length out = length inp →
  ∃ out',
    run_units (kernel_of kind InputBuffer OutputBuffer n B) units
      (Machine (Memory inp out) tr)
    = Some (Machine (Memory inp out') (tr ++ (units ≫= unit_events n B)))
    ∧ length out' = length out
    ∧ ∀ j : nat, out' !! j =
        if bool_decide (Z.of_nat j `div` B ∈ units)
        then lane_of kind <$> inp !! j else out !! j.
Proof.
  intros Hpos HB Hn. revert out tr.
  induction units as [|pid units IH]; intros out tr Hlen.
  { exists out. cbn. rewrite app_nil_r. split_and!; [done..|].
    intros j. rewrite bool_decide_eq_false_2; [done|]. apply not_elem_of_nil. }
  destruct (kernel_run kind n B pid inp out tr) as (out1 & Hrun1 & Hlen1 & Hget1);
    [apply Hpos; by left|lia|done..|].
  destruct (IH (λ p Hp, Hpos p (proj2 (elem_of_cons units p pid) (or_intror Hp)))
              out1 (tr ++ unit_events n B pid)) as (out' & Hrun & Hlen' & Hget);
    [congruence|].
  exists out'. split_and!; [|congruence|].
  - cbn [run_units]. rewrite Hrun1, Hrun, bind_cons. by rewrite app_assoc.
  - intros j. rewrite Hget, Hget1.
    pose proof (block_owner (Z.of_nat j) pid B HB) as Hown.
    destruct (decide (Z.of_nat j `div` B = pid)) as [Heq|Hne].
    + rewrite (bool_decide_eq_true_2 (_ ≤ _ < _)) by (by apply Hown).
      rewrite (bool_decide_eq_true_2 (_ ∈ pid :: _)) by (rewrite Heq; by left).
      by case_bool_decide.
    + rewrite (bool_decide_eq_false_2 (_ ≤ _ < _)) by (by intros ?%Hown).
      apply if_bool_decide_ext. rewrite elem_of_cons. tauto.
Qed.

(** ** The launch grid covers [[0, n)] *)

Lemma cdiv_nonneg n B : 0 ≤ n → 0 < B → 0 ≤ cdiv n B.
Proof. intros. unfold cdiv. apply Z.div_pos; lia. Qed.

Lemma cdiv_covers n B : 0 < B → n ≤ cdiv n B * B.
Proof.
  intros HB. unfold cdiv.
  pose proof (Z.div_mod (n + B - 1) B). pose proof (Z.mod_pos_bound (n + B - 1) B).
  lia.
Qed.

Lemma grid_owner n B j : 0 < B → 0 ≤ j < n → j `div` B ∈ grid n B.
Proof.
  intros HB Hj. unfold grid, cdiv. apply elem_of_seqZ. split.
  - apply Z.div_pos; lia.
  - assert (j `div` B + 1 ≤ (n + B - 1) `div` B); [|lia].
    apply Z.div_le_lower_bound; [done|].
    pose proof (Z.mul_div_le j B HB). lia.
Qed.

Lemma grid_nonneg n B pid : pid ∈ grid n B → 0 ≤ pid.
Proof. unfold grid. intros ?%elem_of_seqZ. lia. Qed.

Lemma filter_keep_all (P : Z → Prop) `{∀ o, Decision (P o)} offs :
  (∀ o, o ∈ offs → P o) → filter P offs = offs.
Proof.
  induction offs as [|o offs IH]; intros Hall; [done|].
  rewrite filter_cons_True by (apply Hall; by left).
  f_equal. apply IH. intros. apply Hall. by right.
Qed.

Lemma filter_drop_all (P : Z → Prop) `{∀ o, Decision (P o)} offs :
  (∀ o, o ∈ offs → ¬ P o) → filter P offs = [].
Proof.
  induction offs as [|o offs IH]; intros Hall; [done|].
  rewrite filter_cons_False by (apply Hall; by left).
  apply IH. intros. apply Hall. by right.
Qed.

Lemma filter_lt_seqZ n m :
  0 ≤ n ≤ m → filter (λ o, o < n) (seqZ 0 m) = seqZ 0 n.
Proof.
  intros Hnm. replace m with (n + (m - n)) by lia.
  rewrite seqZ_app, filter_app by lia.
  rewrite filter_keep_all by (intros o ?%elem_of_seqZ; lia).
  rewrite filter_drop_all by (intros o ?%elem_of_seqZ; lia).
  apply app_nil_r.
Qed.

Lemma block_indices_prefix (k : nat) n B :
  0 < B →
  seqZ 0 (Z.of_nat k) ≫= (λ pid, block_indices pid n B)
  = filter (λ o, o < n) (seqZ 0 (Z.of_nat k * B)).
Proof.
  intros HB. induction k as [|k IH]; [done|].
  rewrite seqZ_S, bind_app, IH, bind_singleton.
  replace (Z.of_nat (S k) * B) with (Z.of_nat k * B + B) by lia.
  rewrite seqZ_app, filter_app by lia.
  by rewrite !Z.add_0_l.
Qed.

Lemma block_indices_grid n B :
  0 ≤ n → 0 < B → grid n B ≫= (λ pid, block_indices pid n B) = seqZ 0 n.
Proof.
  intros Hn HB. unfold grid.
  pose proof (cdiv_nonneg n B Hn HB). pose proof (cdiv_covers n B HB).
  rewrite <- (Z2Nat.id (cdiv n B)) by done.
  rewrite block_indices_prefix by done.
  rewrite Z2Nat.id by done. apply filter_lt_seqZ. lia.
Qed.

Lemma loads_of_units n B units :
  loads_of (units ≫= unit_events n B) = units ≫= (λ pid, block_indices pid n B).
Proof.
  unfold loads_of. induction units as [|pid units IH]; [done|].
  rewrite !bind_cons, bind_app, IH. cbn. by rewrite !app_nil_r.
Qed.

Lemma stores_of_units n B units :
  stores_of (units ≫= unit_events n B) = units ≫= (λ pid, block_indices pid n B).
Proof.
  unfold stores_of. induction units as [|pid units IH]; [done|].
  rewrite !bind_cons, bind_app, IH. cbn. by rewrite !app_nil_r.
Qed.

Lemma count_occ_seqZ n j : 0 ≤ j < n → count_occ Z.eq_dec (seqZ 0 n) j = 1%nat.
Proof.
  intros Hj. apply NoDup_count_occ'.
  - apply NoDup_ListNoDup, NoDup_seqZ.
  - apply list_elem_of_In, elem_of_seqZ. lia.
Qed.

(** A schedule that contains every unit of the grid computes the lane
    function of every input element, whatever the output buffer held
    before and whatever the order of the units. *)
Lemma run_units_cover kind n B units inp out tr :
  (∀ pid, pid ∈ units → 0 ≤ pid) → (∀ pid, pid ∈ grid n B → pid ∈ units) →
  0 < B → Z.of_nat (length inp) = n → length out = length inp →
  run_units (kernel_of kind InputBuffer OutputBuffer n B) units
    (Machine (Memory inp out) tr)
  = Some (Machine (Memory inp (lane_of kind <$> inp))
            (tr ++ (units ≫= unit_events n B))).
Proof.
  intros Hpos Hcover HB Hn Hlen.
  destruct (run_units_kernel kind n B units inp out tr)
    as (out' & -> & Hlen' & Hget); [done..|].
  do 3 f_equal. apply list_eq. intros j.
  rewrite Hget, list_lookup_fmap.
  destruct (decide (Z.of_nat j < n)) as [Hj|Hj].
  - rewrite bool_decide_eq_true_2; [done|].
    apply Hcover, grid_owner; lia.
  - rewrite (lookup_ge_None_2 inp j), (lookup_ge_None_2 out j) by lia.
    by case_bool_decide.
Qed.

(** ** Determinism *)


(** ** Softmax *)



(** ** SiLU and Sigmoid *)


(** ** GELU *)


(** ** Block partitioner and masked load *)

Lemma load_lanes_masked (buffer : list F) n offs :
  (∀ o, o ∈ offs → n ≤ o) →
  load_lanes buffer offs (less_than offs n) = Some ((λ _, of_int 0) <$> offs).
Proof.
  intros Hge. induction offs as [|o offs IH]; [reflexivity|].
  cbn [less_than fmap list_fmap load_lanes]. fold (less_than offs n).
  fold (fmap (M:=list) (λ _ : Z, of_int 0) offs).
  rewrite IH by (intros; apply Hge; by right).
  assert (n ≤ o) by (apply Hge; by left).
  unfold load. by rewrite bool_decide_eq_false_2 by lia.
Qed.

Lemma store_lanes_masked (buffer : list F) n offs values :
  (∀ o, o ∈ offs → n ≤ o) →
  store_lanes buffer offs values (less_than offs n) = Some buffer.
Proof.
  revert values. induction offs as [|o offs IH]; intros values Hge; [reflexivity|].
  destruct values as [|v values]; [reflexivity|].
  cbn [less_than fmap list_fmap store_lanes]. fold (less_than offs n).
  assert (n ≤ o) by (apply Hge; by left).
  unfold store. rewrite bool_decide_eq_false_2 by lia.
  apply IH. intros. apply Hge. by right.
Qed.

Lemma assign_deref (m : @memory F) p : assign m p (deref m p) = m.
Proof. by destruct m, p. Qed.

(** C4.  The masked load of one lane.  A valid lane whose global index lies
    in the buffer returns the buffer element at that index and touches that
    index only.  An invalid lane returns zero, for every global index, inside
    the buffer or not, touches no index and cannot fault.  The load never
    changes the memory. *)
Theorem masked_load_contract ptr (s : @machine F) (pid globalIndex : Z) (valid : bool) :
  let buffer := deref (mem s) ptr in
  (valid = true → 0 ≤ globalIndex < Z.of_nat (length buffer) →
   ∃ v, buffer !! Z.to_nat globalIndex = Some v
        ∧ load buffer globalIndex valid = Some v
        ∧ tl_load ptr [globalIndex] [valid] pid s
          = Some ([v], Machine (mem s) (trace s ++ [EvLoad ptr [globalIndex]])))
  ∧ (valid = false →
     load buffer globalIndex valid = Some (of_int 0)
     ∧ tl_load ptr [globalIndex] [valid] pid s
       = Some ([of_int 0], Machine (mem s) (trace s ++ [EvLoad ptr []]))).
Proof.
  intros buffer. split.
  - intros -> Hidx.
    destruct (lookup_lt_is_Some_2 buffer (Z.to_nat globalIndex)) as [v Hv]; [lia|].
    exists v. split_and!; [done| |].
    + unfold load. by rewrite bool_decide_eq_true_2 by lia.
    + unfold tl_load. fold buffer. cbn [load_lanes valid_lanes lane_access app].
      unfold load. rewrite bool_decide_eq_true_2 by lia. by rewrite Hv.
  - by intros ->.
Qed.

End KernelFacts.

(** * Binary32: concrete runs *)

Section Binary32Facts.
Import Binary32.
Variable L : mathlib.


(** ** ReLU on five elements with blocks of four *)

(** C7.  The ReLU evaluation of [[-2, -1, 0, 1, 2]] with [N = 5] and block
    width 4 launches the two units 0 and 1; unit 0 covers the indices
    [[0, 4)], unit 1 covers [[4, 5)] with its lanes 1 to 3 masked; the output
    buffer ends as [[0, 0, 0, 1, 2]], whatever it held before. *)
Theorem relu_five_elements_blocks_of_four (o0 o1 o2 o3 o4 : float32) :
  let input := of_Z <$> [-2; -1; 0; 1; 2] in
  grid 5 4 = [0; 1]
  ∧ block_indices 0 5 4 = [0; 1; 2; 3]
  ∧ block_indices 1 5 4 = [4]
  ∧ less_than (add_offsets (1 * 4) (tl_arange 0 4)) 5 = [true; false; false; false]
  ∧ @evaluate float32 (ops L) ReLU 5 4 (Machine (Memory input [o0; o1; o2; o3; o4]) [])
    = Some (Machine (Memory input (of_Z <$> [0; 0; 0; 1; 2]))
              [EvLoad InputBuffer [0; 1; 2; 3]; EvStore OutputBuffer [0; 1; 2; 3];
               EvLoad InputBuffer [4]; EvStore OutputBuffer [4]]).
Proof. vm_compute. repeat split. Qed.

(** ** Softmax does not normalise *)

Lemma softmax_lane_two :
  m_exp L (of_Z 0) = of_Z 1 →
  @softmax_lane float32 (ops L) 2 (of_Z 2) = S754_finite false 11184811 (-25).
Proof.
  intros Hexp.
  change (@softmax_lane float32 (ops L) 2 (of_Z 2))
    with (div (m_exp L (sub (of_Z 2) (fmaxf (of_Z 2) (of_Z 2))))
            (add (m_exp L (sub (of_Z 2) (fmaxf (of_Z 2) (of_Z 2)))) (of_Z 2))).
  change (sub (of_Z 2) (fmaxf (of_Z 2) (of_Z 2))) with (of_Z 0).
  rewrite Hexp. reflexivity.
Qed.

End Binary32Facts.

(** * Instances on concrete binary32 buffers

    The statements above, applied to concrete configurations of the binary32
    machine with the polynomial math library; every assumption is discharged
    by evaluation. *)

Section Instances.
Import Binary32.

Local Abbreviation f32 := (ops poly_mathlib).






Lemma masked_load_contract_witness :
  (∃ v, (of_Z <$> [1; 2; 3]) !! 1%nat = Some v
        ∧ @load float32 f32 (of_Z <$> [1; 2; 3]) 1 true = Some v)
  ∧ @load float32 f32 (of_Z <$> [1; 2; 3]) 7 false = Some (of_Z 0).
Proof.
  split.
  - destruct (@masked_load_contract float32 f32 InputBuffer
                (Machine (Memory (of_Z <$> [1; 2; 3]) []) []) 0 1 true) as [Hvalid _].
    destruct Hvalid as (v & Hv & Hload & _); [reflexivity|cbn; lia|].
    exists v. split; [exact Hv|exact Hload].
  - destruct (@masked_load_contract float32 f32 InputBuffer
                (Machine (Memory (of_Z <$> [1; 2; 3]) []) []) 0 7 false) as [_ Hinvalid].
    destruct Hinvalid as [Hload _]; [reflexivity|]. exact Hload.
Defined.

End Instances.

(** * Further properties of the kernels

    Partial launches, repeated units, buffers longer than [n_elements] and
    in-place use, for every kernel of the file. *)

Section LaunchFacts.
Context {F : Type} `{FloatOps F}.

Implicit Types (inp out buf other : list F) (tr : list event) (units : list Z).

(** One invocation with arbitrary pointers, on buffers that hold at least
    [n] elements. *)
Lemma lanewise_run_ptr (f : F → F) x_ptr o_ptr n B pid (s : @machine F) :
  0 ≤ pid → 0 ≤ B →
  n ≤ Z.of_nat (length (deref (mem s) x_ptr)) →
  n ≤ Z.of_nat (length (deref (mem s) o_ptr)) →
  ∃ out',
    lanewise f x_ptr o_ptr n B pid s
    = Some (tt, Machine (assign (mem s) o_ptr out')
                  (trace s ++ [EvLoad x_ptr (block_indices pid n B);
                               EvStore o_ptr (block_indices pid n B)]))
    ∧ length out' = length (deref (mem s) o_ptr)
    ∧ ∀ j : nat, out' !! j =
        if bool_decide (pid * B ≤ Z.of_nat j < pid * B + B ∧ Z.of_nat j < n)
        then f <$> deref (mem s) x_ptr !! j else deref (mem s) o_ptr !! j.
Proof.
  intros Hpid HB Hinp Hout.
  set (inp := deref (mem s) x_ptr) in *. set (out := deref (mem s) o_ptr) in *.
  assert (∀ o, o ∈ seqZ (pid * B) B → 0 ≤ o) as Hpos.
  { intros o Ho%elem_of_seqZ. nia. }
  destruct (store_lanes_fmap out n (seqZ (pid * B) B) (f ∘ lane_input inp n))
    as (out' & Hrun & Hlen' & Hget); [done|lia|].
  exists out'. split_and!; [|done|].
  - unfold lanewise, prog_bind. rewrite program_id_axis0.
    unfold tl_load, tl_store. rewrite block_offsets. fold inp.
    rewrite load_lanes_fmap by done. cbn [mem trace]. fold out.
    rewrite <- list_fmap_compose, Hrun.
    rewrite valid_lanes_filter. unfold block_indices.
    by rewrite <- app_assoc.
  - intros j. rewrite Hget.
    pose proof (elem_of_seqZ (pid * B) B (Z.of_nat j)) as Hel.
    destruct (decide (Z.of_nat j < n)) as [Hj|Hj].
    + destruct (lookup_lt_is_Some_2 inp j) as [v Hv]; [lia|].
      assert ((f ∘ lane_input inp n) (Z.of_nat j) = f v) as ->.
      { cbn. unfold lane_input. rewrite bool_decide_eq_true_2 by done.
        by rewrite Nat2Z.id, Hv. }
      rewrite Hv. cbn. apply if_bool_decide_ext. rewrite Hel. tauto.
    + rewrite !bool_decide_eq_false_2; [done|lia|lia].
Qed.

(** Any schedule of unit ids on separate buffers: which output elements are
    replaced, and by what. *)
Lemma run_units_prefix kind n B units inp out tr :
  (∀ pid, pid ∈ units → 0 ≤ pid) → 0 < B →
  n ≤ Z.of_nat (length inp) → n ≤ Z.of_nat (length out) →
  ∃ out',
    run_units (kernel_of kind InputBuffer OutputBuffer n B) units
      (Machine (Memory inp out) tr)
    = Some (Machine (Memory inp out') (tr ++ (units ≫= unit_events n B)))
    ∧ length out' = length out
    ∧ ∀ j : nat, out' !! j =
        if bool_decide (Z.of_nat j < n ∧ Z.of_nat j `div` B ∈ units)
        then lane_of kind <$> inp !! j else out !! j.
Proof.
  intros Hpos HB Hinp. revert out tr.
  induction units as [|pid units IH]; intros out tr Hout.
  { exists out. cbn. rewrite app_nil_r. split_and!; [done..|].
    intros j. rewrite bool_decide_eq_false_2; [done|].
    intros [_ Hj]. by apply not_elem_of_nil in Hj. }
  destruct (lanewise_run_ptr (lane_of kind) InputBuffer OutputBuffer n B pid
              (Machine (Memory inp out) tr))
    as (out1 & Hrun1 & Hlen1 & Hget1); [apply Hpos; by left|lia|done|done|].
  cbn [mem trace deref assign input_buffer output_buffer] in Hrun1, Hlen1, Hget1.
  destruct (IH (λ p Hp, Hpos p (proj2 (elem_of_cons units p pid) (or_intror Hp)))
              out1 (tr ++ unit_events n B pid)) as (out' & Hrun & Hlen' & Hget);
    [lia|].
  exists out'. split_and!; [|congruence|].
  - cbn [run_units]. rewrite kernel_lanewise, Hrun1. unfold unit_events in Hrun.
    rewrite Hrun, bind_cons. by rewrite app_assoc.
  - intros j. rewrite Hget, Hget1.
    pose proof (block_owner (Z.of_nat j) pid B HB) as Hown.
    destruct (decide (Z.of_nat j < n ∧ Z.of_nat j `div` B = pid)) as [[Hj Heq]|Hne].
    + rewrite (bool_decide_eq_true_2 (_ ≤ _ < _ ∧ _)) by (split; [by apply Hown|done]).
      rewrite (bool_decide_eq_true_2 (_ ∧ _ ∈ pid :: _))
        by (split; [done|rewrite Heq; by left]).
      by case_bool_decide.
    + rewrite (bool_decide_eq_false_2 (_ ≤ _ < _ ∧ _))
        by (intros [?%Hown ?]; by apply Hne).
      apply if_bool_decide_ext. rewrite elem_of_cons. tauto.
Qed.





(** ** [n_elements] beyond the input buffer *)



(** ** In-place use: both pointers denote the same buffer *)



End LaunchFacts.

(** * Binary32: numeric behaviour of ReLU, Softsign and Softmax *)

Section Binary32Numerics.
Import Binary32.
Variable L : mathlib.





(** ** Softsign *)

Lemma binary_round_aux_opp p e (s : bool) m ex l :
  binary_round_aux p e (negb s) m ex l = SFopp (binary_round_aux p e s m ex l).
Proof.
  unfold binary_round_aux.
  destruct (shr_fexp p e m ex l) as [mrs' e'].
  destruct (shr_fexp p e _ e' loc_Exact) as [mrs'' e''].
  destruct (shr_m mrs''); [reflexivity| |reflexivity].
  by destruct (Z.leb e'' (e - p)).
Qed.

Lemma SFdiv_opp_l p e (x d : spec_float) :
  SFdiv p e (SFopp x) d = SFopp (SFdiv p e x d).
Proof.
  destruct x as [sx|sx| |sx mx ex], d as [sd|sd| |sd md ed];
    cbn [SFdiv SFopp]; rewrite ?negb_xorb_l; try reflexivity.
  destruct (SFdiv_core_binary p e (Z.pos mx) ex (Z.pos md) ed) as [[mz ez] lz].
  rewrite <- negb_xorb_l. apply binary_round_aux_opp.
Qed.

Lemma SFabs_opp (x : spec_float) : SFabs (SFopp x) = SFabs x.
Proof. by destruct x. Qed.

(** X9.  Softsign is odd on binary32: for every 32-bit value [x], special
    values included, the lane function at [-x] is the negation of the lane
    function at [x]. *)
Theorem softsign_is_odd (x : float32) :
  @softsign_lane float32 (ops L) (SFopp x)
  = SFopp (@softsign_lane float32 (ops L) x).
Proof.
  change (div (SFopp x) (add (SFabs (SFopp x)) (of_Z 1))
          = SFopp (div x (add (SFabs x) (of_Z 1)))).
  rewrite SFabs_opp. apply SFdiv_opp_l.
Qed.

(** X10.  Softsign at the special values of binary32: a signed zero is
    returned unchanged, and an infinity or a NaN yields NaN (the quotient
    [inf / inf]), not [±1]. *)
Theorem softsign_special_values :
  (∀ s, @softsign_lane float32 (ops L) (S754_zero s) = S754_zero s)
  ∧ (∀ s, @softsign_lane float32 (ops L) (S754_infinity s) = S754_nan)
  ∧ @softsign_lane float32 (ops L) S754_nan = S754_nan.
Proof. split_and!; [intros []; reflexivity|intros []; reflexivity|reflexivity]. Qed.

(** ** Softmax *)




End Binary32Numerics.

(** * Instances of the further properties on concrete binary32 buffers *)

Section FurtherInstances.
Import Binary32.

Local Abbreviation f32 := (ops poly_mathlib).

Ltac cases_units Hpid :=
  repeat (apply elem_of_cons in Hpid as [->|Hpid]);
  [try lia; repeat first [by left | right].. | by apply elem_of_nil in Hpid].

Ltac in_units :=
  let pid := fresh "pid" in
  let Hpid := fresh "Hpid" in
  intros pid Hpid; cases_units Hpid.









End FurtherInstances.

(** * The kernels with 32-bit indices *)

Section Int32Facts.
Context {F : Type} `{FloatOps F}.

Implicit Types (inp out buf other : list F) (tr : list event) (units : list Z).

Lemma wrap_in_range z : - 2 ^ 31 ≤ z < 2 ^ 31 → Int32.wrap z = z.
Proof. intros Hz. unfold Int32.wrap. rewrite Z.mod_small by lia. lia. Qed.

Lemma power_of_two_pos B : Int32.valid_block_shape B = true → 0 < B.
Proof.
  unfold Int32.valid_block_shape, Int32.is_power_of_two.
  intros [[Hpos _]%andb_true_iff _]%andb_true_iff.
  by apply Z.ltb_lt in Hpos.
Qed.

Lemma offsets_in_range pid B :
  0 ≤ pid → 0 < B → (pid + 1) * B ≤ 2 ^ 31 →
  Int32.add_offsets (Int32.mul pid B) (seqZ 0 B)
  = add_offsets (pid * B) (tl_arange 0 B).
Proof.
  intros Hpid HB Hend.
  unfold Int32.add_offsets, Int32.mul, add_offsets, tl_arange.
  rewrite Z.sub_0_r, wrap_in_range by nia.
  apply list_fmap_ext. intros i x [-> Hi]%lookup_seqZ.
  unfold Int32.add. apply wrap_in_range. nia.
Qed.

(** Where no index wraps and [tl.arange] accepts the width, the 32-bit
    kernels are the kernels over the integers. *)
Lemma kernel_in_range kind x_ptr o_ptr n B pid (s : @machine F) :
  Int32.valid_block_shape B = true → 0 ≤ pid → (pid + 1) * B ≤ 2 ^ 31 →
  Int32.kernel_of kind x_ptr o_ptr n B pid s = kernel_of kind x_ptr o_ptr n B pid s.
Proof.
  intros Hpow Hpid Hend. pose proof (power_of_two_pos B Hpow) as HB.
  destruct kind; cbn [Int32.kernel_of kernel_of];
    unfold Int32.tanh_activation_kernel, Int32.relu_activation_kernel,
      Int32.softplus_activation_kernel, Int32.softsign_activation_kernel,
      Int32.sigmoid_activation_kernel, Int32.silu_activation_kernel,
      Int32.gelu_activation_kernel, Int32.softmax_activation_kernel,
      tanh_activation_kernel, relu_activation_kernel,
      softplus_activation_kernel, softsign_activation_kernel,
      sigmoid_activation_kernel, silu_activation_kernel,
      gelu_activation_kernel, softmax_activation_kernel,
      prog_bind, Int32.tl_arange;
    rewrite !program_id_axis0, Z.sub_0_r, Hpow;
    cbv zeta; by rewrite offsets_in_range.
Qed.

Lemma run_units_in_range kind x_ptr o_ptr n B units (s : @machine F) :
  Int32.valid_block_shape B = true →
  (∀ pid, pid ∈ units → 0 ≤ pid ∧ (pid + 1) * B ≤ 2 ^ 31) →
  run_units (Int32.kernel_of kind x_ptr o_ptr n B) units s
  = run_units (kernel_of kind x_ptr o_ptr n B) units s.
Proof.
  intros Hpow. revert s. induction units as [|pid units IH]; intros s Hrange; [done|].
  cbn [run_units]. destruct (Hrange pid) as [Hpid Hend]; [by left|].
  rewrite kernel_in_range by done.
  destruct (kernel_of kind x_ptr o_ptr n B pid s) as [[[] s']|]; [|done].
  apply IH. intros p Hp. apply Hrange. by right.
Qed.

Lemma grid_in_range n B pid :
  0 < B → cdiv n B * B ≤ 2 ^ 31 → pid ∈ grid n B →
  0 ≤ pid ∧ (pid + 1) * B ≤ 2 ^ 31.
Proof. unfold grid. intros HB Hend Hpid%elem_of_seqZ. nia. Qed.

(** A unit at or beyond the end of the grid has no valid lane. *)
Lemma kernel_beyond_grid kind x_ptr o_ptr n B pid (s : @machine F) :
  0 < B → cdiv n B ≤ pid →
  kernel_of kind x_ptr o_ptr n B pid s
  = Some (tt, Machine (mem s) (trace s ++ [EvLoad x_ptr []; EvStore o_ptr []])).
Proof.
  intros HB Hpid.
  pose proof (cdiv_covers n B HB) as Hcov.
  assert (∀ o, o ∈ seqZ (pid * B) B → n ≤ o) as Hge.
  { intros o ?%elem_of_seqZ. nia. }
  rewrite kernel_lanewise.
  unfold lanewise, prog_bind. rewrite program_id_axis0.
  unfold tl_load, tl_store. rewrite block_offsets.
  rewrite load_lanes_masked by done. cbn [mem trace].
  rewrite store_lanes_masked by done.
  rewrite valid_lanes_filter, filter_drop_all by (intros o ?%Hge; lia).
  by rewrite assign_deref, <- app_assoc.
Qed.

(** ** Coverage and bounds *)

(** C1.  For every element count [N ≥ 0] and every block width [B] that
    [tl.arange] accepts (a power of two within the block size limit) with
    [ceil(N/B) * B ≤ 2^31] (no 32-bit index wraps), when
    a kernel of any kind is invoked once for every unit id of
    [[0, ceil(N/B))], in any order, on buffers of length [N]: no invocation
    fails; the output buffer ends holding, at every index of [[0, N)], the
    lane value of the input element at that index, whatever it held before;
    the input buffer is unchanged; every index of [[0, N)] is stored to
    exactly once over the whole run; and every index loaded from or stored to
    lies in [[0, N)], so the lanes of the last block at or beyond [N] touch
    nothing. *)
Theorem masked_blocks_cover_exactly_once kind (N B : Z) units inp out :
  Int32.valid_block_shape B = true → 0 ≤ N → cdiv N B * B ≤ 2 ^ 31 →
  Z.of_nat (length inp) = N → Z.of_nat (length out) = N →
  units ≡ₚ grid N B →
  ∃ s',
    run_units (Int32.kernel_of kind InputBuffer OutputBuffer N B) units
      (Machine (Memory inp out) []) = Some s'
    ∧ input_buffer (mem s') = inp
    ∧ output_buffer (mem s') = lane_of kind <$> inp
    ∧ (∀ j, 0 ≤ j < N → count_occ Z.eq_dec (stores_of (trace s')) j = 1%nat)
    ∧ (∀ j, j ∈ loads_of (trace s') ∨ j ∈ stores_of (trace s') → 0 ≤ j < N).
Proof.
  intros Hpow HN Hend Hinp Hout Hperm.
  pose proof (power_of_two_pos B Hpow) as HB.
  assert (units ≫= (λ pid, block_indices pid N B) ≡ₚ seqZ 0 N) as Hidx.
  { rewrite Hperm. by rewrite block_indices_grid. }
  eexists. split_and!.
  - rewrite run_units_in_range; [|done|].
    + apply run_units_cover; [| |done|done|lia].
      * intros pid Hpid. rewrite Hperm in Hpid. by eapply grid_nonneg.
      * intros pid Hpid. by rewrite Hperm.
    + intros pid Hpid. rewrite Hperm in Hpid. by eapply grid_in_range.
  - reflexivity.
  - reflexivity.
  - intros j Hj. cbn [trace app]. rewrite stores_of_units.
    rewrite (Permutation_count_occ Z.eq_dec) in Hidx. rewrite Hidx.
    by apply count_occ_seqZ.
  - intros j. cbn [trace app]. rewrite loads_of_units, stores_of_units, Hidx.
    rewrite elem_of_seqZ. lia.
Qed.

(** ** Block partitioner *)

(** C5.  For every block width that [tl.arange] accepts (a power of two
    within the block size limit), every [N] and every unit id whose block
    ends at or below [2^31] (no 32-bit index wraps), an
    invocation of any kernel partitions as follows: with
    [start = unitId * blockWidth], lane [i] of [[0, blockWidth)] has global
    index [start + i] and is valid exactly when [start + i < N].  On buffers
    holding at least [N] elements the invocation loads from and stores to
    exactly the valid global indices, in lane order, writes the lane value of
    the input there and leaves every other element as it was.  For a unit id
    at or beyond [ceil(N/blockWidth)] no lane is valid and the invocation, on
    any memory, returns without touching an index. *)
Theorem block_partitioner_contract kind x_ptr output_ptr (unitId blockWidth N : Z)
    (s : @machine F) :
  Int32.valid_block_shape blockWidth = true →
  0 ≤ unitId → (unitId + 1) * blockWidth ≤ 2 ^ 31 →
  let start := unitId * blockWidth in
  let lanes := filter (λ g, g < N) ((λ i, start + i) <$> seqZ 0 blockWidth) in
  (∀ g, g ∈ lanes ↔ ∃ i, 0 ≤ i < blockWidth ∧ g = start + i ∧ g < N)
  ∧ (N ≤ Z.of_nat (length (deref (mem s) x_ptr)) →
     N ≤ Z.of_nat (length (deref (mem s) output_ptr)) →
     ∃ out',
       Int32.kernel_of kind x_ptr output_ptr N blockWidth unitId s
       = Some (tt, Machine (assign (mem s) output_ptr out')
                     (trace s ++ [EvLoad x_ptr lanes; EvStore output_ptr lanes]))
       ∧ length out' = length (deref (mem s) output_ptr)
       ∧ ∀ j : nat, out' !! j =
           if bool_decide (start ≤ Z.of_nat j < start + blockWidth ∧ Z.of_nat j < N)
           then lane_of kind <$> deref (mem s) x_ptr !! j
           else deref (mem s) output_ptr !! j)
  ∧ (cdiv N blockWidth ≤ unitId →
     lanes = []
     ∧ Int32.kernel_of kind x_ptr output_ptr N blockWidth unitId s
       = Some (tt, Machine (mem s)
                     (trace s ++ [EvLoad x_ptr []; EvStore output_ptr []]))).
Proof.
  intros Hpow Hpid Hend start lanes.
  pose proof (power_of_two_pos blockWidth Hpow) as HB.
  assert (lanes = block_indices unitId N blockWidth) as Hlanes.
  { unfold lanes, block_indices, start.
    change (λ i, unitId * blockWidth + i) with (Z.add (unitId * blockWidth)).
    by rewrite fmap_add_seqZ, Z.add_0_r. }
  split_and!.
  - intros g. rewrite Hlanes. unfold block_indices.
    rewrite list_elem_of_filter, elem_of_seqZ. fold start. split.
    + intros [Hg Hin]. exists (g - start). lia.
    + intros (i & Hi & -> & Hg). lia.
  - intros Hinp Hout. rewrite kernel_in_range, kernel_lanewise by done.
    rewrite Hlanes. by apply lanewise_run_ptr; [|lia|..].
  - intros Hbeyond. rewrite kernel_in_range by done. split.
    + rewrite Hlanes. apply filter_drop_all.
      pose proof (cdiv_covers N blockWidth HB).
      intros o ?%elem_of_seqZ. nia.
    + by apply kernel_beyond_grid.
Qed.

(** ** Partial launches *)

(** X1.  Partial launches and the frame of a launch.  For every kernel, a
    block width that [tl.arange] accepts, any schedule of unit ids whose
    blocks end at or below [2^31], and buffers holding at least [n_elements]
    elements: the run
    does not fail, never changes the input buffer nor the length of the
    output buffer, writes the lane value of the input element at every index
    below [n_elements] whose owning unit [j / BLOCK_SIZE] was run, and leaves
    every other output element, in particular the whole tail from
    [n_elements] on, as it was. *)
Theorem partial_launch_frame kind (n B : Z) units inp out tr :
  Int32.valid_block_shape B = true →
  (∀ pid, pid ∈ units → 0 ≤ pid ∧ (pid + 1) * B ≤ 2 ^ 31) →
  n ≤ Z.of_nat (length inp) → n ≤ Z.of_nat (length out) →
  ∃ s',
    run_units (Int32.kernel_of kind InputBuffer OutputBuffer n B) units
      (Machine (Memory inp out) tr) = Some s'
    ∧ input_buffer (mem s') = inp
    ∧ length (output_buffer (mem s')) = length out
    ∧ (∀ (j : nat) (x : F),
         Z.of_nat j < n → Z.of_nat j `div` B ∈ units → inp !! j = Some x →
         output_buffer (mem s') !! j = Some (lane_of kind x))
    ∧ (∀ j : nat,
         n ≤ Z.of_nat j ∨ Z.of_nat j `div` B ∉ units →
         output_buffer (mem s') !! j = out !! j).
Proof.
  intros Hpow Hrange Hinp Hout.
  pose proof (power_of_two_pos B Hpow) as HB.
  destruct (run_units_prefix kind n B units inp out tr)
    as (out' & Hrun & Hlen & Hget); [|done..|].
  { intros pid Hpid. by apply Hrange. }
  eexists. split_and!; [by rewrite run_units_in_range|done|done| |].
  - intros j x Hj Hown Hx. cbn. by rewrite Hget, bool_decide_eq_true_2, Hx.
  - intros j Hj. cbn. rewrite Hget, bool_decide_eq_false_2; [done|].
    intros [? ?]. destruct Hj; [lia|done].
Qed.

(** X4.  No index is written twice.  For a block width that [tl.arange]
    accepts and a schedule without repeated unit ids whose blocks end at or
    below [2^31],
    complete or not, the indices stored to over the whole run are pairwise
    distinct, and every index loaded from or stored to lies in
    [[0, n_elements)] and in the block of a unit that was run: two
    invocations never write the same element. *)
Theorem distinct_units_write_distinct_indices kind (n B : Z) units inp out :
  Int32.valid_block_shape B = true →
  (∀ pid, pid ∈ units → 0 ≤ pid ∧ (pid + 1) * B ≤ 2 ^ 31) → NoDup units →
  n ≤ Z.of_nat (length inp) → n ≤ Z.of_nat (length out) →
  ∃ s',
    run_units (Int32.kernel_of kind InputBuffer OutputBuffer n B) units
      (Machine (Memory inp out) []) = Some s'
    ∧ NoDup (stores_of (trace s'))
    ∧ (∀ j, j ∈ loads_of (trace s') ∨ j ∈ stores_of (trace s') →
            0 ≤ j < n ∧ j `div` B ∈ units).
Proof.
  intros Hpow Hrange Hnodup Hinp Hout.
  pose proof (power_of_two_pos B Hpow) as HB.
  assert (∀ pid, pid ∈ units → 0 ≤ pid) as Hpos by (intros pid Hpid; by apply Hrange).
  destruct (run_units_prefix kind n B units inp out [])
    as (out' & Hrun & _ & _); [done..|].
  assert (∀ pid j, 0 ≤ pid → j ∈ block_indices pid n B →
            0 ≤ j < n ∧ j `div` B = pid) as Hblock.
  { intros pid j Hpid [Hjn Hj%elem_of_seqZ]%list_elem_of_filter.
    split; [nia|]. by apply block_owner. }
  eexists. split_and!; [by rewrite run_units_in_range| |].
  - cbn [trace app]. rewrite stores_of_units. apply NoDup_bind; [| |done].
    + intros p1 p2 j Hp1 Hp2 Hj1 Hj2.
      destruct (Hblock p1 j (Hpos p1 Hp1) Hj1) as [_ <-].
      by destruct (Hblock p2 j (Hpos p2 Hp2) Hj2) as [_ <-].
    + intros pid _. apply NoDup_filter, NoDup_seqZ.
  - intros j. cbn [trace app]. rewrite loads_of_units, stores_of_units.
    intros Hj. assert (j ∈ units ≫= λ pid, block_indices pid n B) as Hin
      by (by destruct Hj).
    apply list_elem_of_bind in Hin as (pid & Hjp & Hpid).
    destruct (Hblock pid j (Hpos pid Hpid) Hjp) as [? ->]. done.
Qed.

(** X7.  In place, a unit invoked twice applies the lane function twice.
    When the input and output pointers denote the same buffer, [tl.arange]
    accepts the block width and the block of the unit ends at or below
    [2^31], two invocations of the unit leave [f (f x)] at every element [x]
    of its block below [n_elements], where [f] is the lane function of the
    kernel, and leave every other element and the other buffer as they
    were. *)
Theorem in_place_rerun_applies_twice kind (n B pid : Z) other buf tr :
  Int32.valid_block_shape B = true → 0 ≤ pid → (pid + 1) * B ≤ 2 ^ 31 →
  n ≤ Z.of_nat (length buf) →
  ∃ s',
    run_units (Int32.kernel_of kind OutputBuffer OutputBuffer n B) [pid; pid]
      (Machine (Memory other buf) tr) = Some s'
    ∧ input_buffer (mem s') = other
    ∧ length (output_buffer (mem s')) = length buf
    ∧ (∀ (j : nat) (x : F),
         pid * B ≤ Z.of_nat j < pid * B + B → Z.of_nat j < n → buf !! j = Some x →
         output_buffer (mem s') !! j = Some (lane_of kind (lane_of kind x)))
    ∧ (∀ j : nat,
         ¬ (pid * B ≤ Z.of_nat j < pid * B + B ∧ Z.of_nat j < n) →
         output_buffer (mem s') !! j = buf !! j).
Proof.
  intros Hpow Hpid Hend Hbuf.
  pose proof (power_of_two_pos B Hpow) as HB.
  destruct (lanewise_run_ptr (lane_of kind) OutputBuffer OutputBuffer n B pid
              (Machine (Memory other buf) tr))
    as (buf1 & Hrun1 & Hlen1 & Hget1); [lia..|done|done|].
  cbn [mem trace deref assign input_buffer output_buffer] in Hrun1, Hlen1, Hget1.
  destruct (lanewise_run_ptr (lane_of kind) OutputBuffer OutputBuffer n B pid
              (Machine (Memory other buf1)
                 (tr ++ [EvLoad OutputBuffer (block_indices pid n B);
                         EvStore OutputBuffer (block_indices pid n B)])))
    as (buf2 & Hrun2 & Hlen2 & Hget2); [lia..|cbn; lia|cbn; lia|].
  cbn [mem trace deref assign input_buffer output_buffer] in Hrun2, Hlen2, Hget2.
  eexists. split_and!.
  - cbn [run_units].
    rewrite kernel_in_range, kernel_lanewise, Hrun1 by done.
    rewrite kernel_in_range, kernel_lanewise, Hrun2 by done.
    reflexivity.
  - reflexivity.
  - cbn. congruence.
  - intros j x Hj Hjn Hx. cbn.
    rewrite Hget2, bool_decide_eq_true_2 by done.
    by rewrite Hget1, bool_decide_eq_true_2, Hx by done.
  - intros j Hj. cbn.
    rewrite Hget2, bool_decide_eq_false_2 by done.
    by rewrite Hget1, bool_decide_eq_false_2 by done.
Qed.

End Int32Facts.

(** * Binary32: softmax does not normalise *)

Section SoftmaxSum.
Import Binary32.
Variable L : mathlib.

(** C3.  There is an input buffer whose softmax outputs do not sum to 1 over
    the axis: the axis of the two elements [[2, 2]], with [N = 2],
    [axis_ld = 2] and one block of width 2.  Whatever the output buffer held
    before, the kernel stores [1/3] at both indices, and their sum [2/3]
    compares below 1.  The device exponential is only required to map 0
    to 1. *)
Theorem softmax_outputs_do_not_sum_to_one (o0 o1 : float32) :
  m_exp L (of_Z 0) = of_Z 1 →
  let third := S754_finite false 11184811 (-25) in
  @Int32.softmax_activation_kernel float32 (ops L) InputBuffer OutputBuffer 2 2 2 0
    (Machine (Memory [of_Z 2; of_Z 2] [o0; o1]) [])
  = Some (tt, Machine (Memory [of_Z 2; of_Z 2] [third; third])
                [EvLoad InputBuffer [0; 1]; EvStore OutputBuffer [0; 1]])
  ∧ axis_sum [third; third] = S754_finite false 11184811 (-24)
  ∧ SFltb (axis_sum [third; third]) (of_Z 1) = true
  ∧ axis_sum [third; third] ≠ of_Z 1.
Proof.
  intros Hexp third. split_and!; [|reflexivity|reflexivity|discriminate].
  change (@Int32.softmax_activation_kernel float32 (ops L) InputBuffer OutputBuffer 2 2 2)
    with (@Int32.kernel_of float32 (ops L) (Softmax 2) InputBuffer OutputBuffer 2 2).
  rewrite kernel_in_range by (reflexivity || lia).
  rewrite kernel_run_whole by (reflexivity || lia).
  cbn [fmap list_fmap lane_of]. rewrite (softmax_lane_two L Hexp). reflexivity.
Qed.

End SoftmaxSum.

(** * Instances on the 32-bit kernels *)

Section Int32Instances.
Import Binary32.

Local Abbreviation f32 := (ops poly_mathlib).

Ltac cases_units Hpid :=
  repeat (apply elem_of_cons in Hpid as [->|Hpid]);
  [try lia; repeat first [by left | right].. | by apply elem_of_nil in Hpid].

Ltac in_units :=
  let pid := fresh "pid" in
  let Hpid := fresh "Hpid" in
  intros pid Hpid; cases_units Hpid.

(** The claim of C1 read for every positive width and every count fails
    twice.  With width 3 [tl.arange] raises and the launch writes nothing.
    With [N = 2^31 + 2] and width 2 the unit [2^30] of the grid, which owns
    the indices [2^31] and [2^31 + 1], computes the offsets [-2^31] and
    [-2^31 + 1], both valid under the mask, and its invocation fails on an
    index outside the buffer. *)
Lemma masked_blocks_cover_exactly_once_counterexample :
  @run_units float32 (@Int32.kernel_of float32 f32 ReLU InputBuffer OutputBuffer 10 3)
    (grid 10 3)
    (Machine (Memory (of_Z <$> [-5; -4; -3; -2; -1; 0; 1; 2; 3; 4])
                (of_Z <$> [0; 0; 0; 0; 0; 0; 0; 0; 0; 0])) []) = None
  ∧ 2 ^ 30 ∈ grid (2 ^ 31 + 2) 2
  ∧ Int32.add_offsets (Int32.mul (2 ^ 30) 2) (seqZ 0 2) = [- 2 ^ 31; - 2 ^ 31 + 1]
  ∧ less_than [- 2 ^ 31; - 2 ^ 31 + 1] (2 ^ 31 + 2) = [true; true]
  ∧ @Int32.kernel_of float32 f32 ReLU InputBuffer OutputBuffer (2 ^ 31 + 2) 2 (2 ^ 30)
      (Machine (Memory (replicate (Z.to_nat (2 ^ 31 + 2)) (of_Z 1))
                  (replicate (Z.to_nat (2 ^ 31 + 2)) (of_Z 0))) []) = None.
Proof.
  split_and!.
  - vm_compute. reflexivity.
  - apply elem_of_seqZ. vm_compute. split; [discriminate|reflexivity].
  - vm_compute. reflexivity.
  - vm_compute. reflexivity.
  - generalize (replicate (Z.to_nat (2 ^ 31 + 2)) (of_Z 1)).
    generalize (replicate (Z.to_nat (2 ^ 31 + 2)) (of_Z 0)).
    intros out inp. vm_compute. reflexivity.
Qed.

Lemma masked_blocks_cover_exactly_once_witness :
  ∃ s',
    @run_units float32 (@Int32.kernel_of float32 f32 ReLU InputBuffer OutputBuffer 10 8) [1; 0]
      (Machine (Memory (of_Z <$> [-5; -4; -3; -2; -1; 0; 1; 2; 3; 4])
                  (of_Z <$> [9; 9; 9; 9; 9; 9; 9; 9; 9; 9])) []) = Some s'
    ∧ input_buffer (mem s') = of_Z <$> [-5; -4; -3; -2; -1; 0; 1; 2; 3; 4]
    ∧ output_buffer (mem s')
      = @lane_of float32 f32 ReLU <$> (of_Z <$> [-5; -4; -3; -2; -1; 0; 1; 2; 3; 4])
    ∧ (∀ j, 0 ≤ j < 10 → count_occ Z.eq_dec (stores_of (trace s')) j = 1%nat)
    ∧ (∀ j, j ∈ loads_of (trace s') ∨ j ∈ stores_of (trace s') → 0 ≤ j < 10).
Proof.
  apply (@masked_blocks_cover_exactly_once float32 f32 ReLU 10 8 [1; 0]);
    [reflexivity|lia|vm_compute; discriminate|reflexivity|reflexivity|].
  change (grid 10 8) with [0; 1]. apply perm_swap.
Defined.

(** The claim of C5 read for every unit id fails: for unit [2^30], width 2
    and [N = 10], a unit beyond the grid, the start [2^31] wraps, the lanes
    get the global indices [-2^31] and [-2^31 + 1], both are valid under the
    mask, and the invocation fails on an index outside the buffer. *)
Lemma block_partitioner_contract_counterexample :
  cdiv 10 2 ≤ 2 ^ 30
  ∧ Int32.add_offsets (Int32.mul (2 ^ 30) 2) (seqZ 0 2) = [- 2 ^ 31; - 2 ^ 31 + 1]
  ∧ less_than (Int32.add_offsets (Int32.mul (2 ^ 30) 2) (seqZ 0 2)) 10 = [true; true]
  ∧ @Int32.kernel_of float32 f32 Tanh InputBuffer OutputBuffer 10 2 (2 ^ 30)
      (Machine (Memory (of_Z <$> [-5; -4; -3; -2; -1; 0; 1; 2; 3; 4])
                  (of_Z <$> [0; 0; 0; 0; 0; 0; 0; 0; 0; 0])) []) = None.
Proof.
  split_and!.
  - vm_compute. discriminate.
  - vm_compute. reflexivity.
  - vm_compute. reflexivity.
  - vm_compute. reflexivity.
Qed.

Lemma block_partitioner_contract_witness :
  (∃ out',
     @Int32.kernel_of float32 f32 Tanh InputBuffer OutputBuffer 10 8 1
       (Machine (Memory (of_Z <$> [-5; -4; -3; -2; -1; 0; 1; 2; 3; 4])
                   (of_Z <$> [9; 9; 9; 9; 9; 9; 9; 9; 9; 9])) [])
     = Some (tt, Machine (Memory (of_Z <$> [-5; -4; -3; -2; -1; 0; 1; 2; 3; 4]) out')
                   [EvLoad InputBuffer [8; 9]; EvStore OutputBuffer [8; 9]])
     ∧ out' !! 8%nat = Some (@lane_of float32 f32 Tanh (of_Z 3))
     ∧ out' !! 7%nat = Some (of_Z 9))
  ∧ @Int32.kernel_of float32 f32 Tanh InputBuffer OutputBuffer 10 8 2
      (Machine (Memory (of_Z <$> [-5; -4; -3; -2; -1; 0; 1; 2; 3; 4])
                  (of_Z <$> [9; 9; 9; 9; 9; 9; 9; 9; 9; 9])) [])
    = Some (tt, Machine (Memory (of_Z <$> [-5; -4; -3; -2; -1; 0; 1; 2; 3; 4])
                           (of_Z <$> [9; 9; 9; 9; 9; 9; 9; 9; 9; 9]))
                  [EvLoad InputBuffer []; EvStore OutputBuffer []]).
Proof.
  split.
  - destruct (@block_partitioner_contract float32 f32 Tanh InputBuffer OutputBuffer 1 8 10
                (Machine (Memory (of_Z <$> [-5; -4; -3; -2; -1; 0; 1; 2; 3; 4])
                            (of_Z <$> [9; 9; 9; 9; 9; 9; 9; 9; 9; 9])) []))
      as (_ & Hin & _); [reflexivity|lia|lia|].
    destruct Hin as (out' & Hrun & _ & Hget); [cbn; lia|cbn; lia|].
    exists out'. split_and!.
    + exact Hrun.
    + exact (Hget 8%nat).
    + exact (Hget 7%nat).
  - destruct (@block_partitioner_contract float32 f32 Tanh InputBuffer OutputBuffer 2 8 10
                (Machine (Memory (of_Z <$> [-5; -4; -3; -2; -1; 0; 1; 2; 3; 4])
                            (of_Z <$> [9; 9; 9; 9; 9; 9; 9; 9; 9; 9])) []))
      as (_ & _ & Hout); [reflexivity|lia|lia|].
    destruct Hout as [_ Hrun]; [vm_compute; discriminate|]. exact Hrun.
Defined.

Lemma softmax_outputs_do_not_sum_to_one_witness :
  @Int32.softmax_activation_kernel float32 f32 InputBuffer OutputBuffer 2 2 2 0
    (Machine (Memory [of_Z 2; of_Z 2] [of_Z 1; of_Z 0]) [])
  = Some (tt, Machine (Memory [of_Z 2; of_Z 2]
                         [S754_finite false 11184811 (-25);
                          S754_finite false 11184811 (-25)])
                [EvLoad InputBuffer [0; 1]; EvStore OutputBuffer [0; 1]])
  ∧ axis_sum [S754_finite false 11184811 (-25); S754_finite false 11184811 (-25)]
    = S754_finite false 11184811 (-24)
  ∧ SFltb (axis_sum [S754_finite false 11184811 (-25);
                     S754_finite false 11184811 (-25)]) (of_Z 1) = true
  ∧ axis_sum [S754_finite false 11184811 (-25); S754_finite false 11184811 (-25)]
    ≠ of_Z 1.
Proof.
  apply (softmax_outputs_do_not_sum_to_one poly_mathlib (of_Z 1) (of_Z 0)). reflexivity.
Defined.

Lemma partial_launch_frame_witness :
  ∃ s',
    @run_units float32 (@Int32.kernel_of float32 f32 ReLU InputBuffer OutputBuffer 5 4) [1]
      (Machine (Memory (of_Z <$> [-2; -1; 0; 1; 2; 3]) (of_Z <$> [9; 9; 9; 9; 9; 9; 9])) [])
    = Some s'
    ∧ input_buffer (mem s') = of_Z <$> [-2; -1; 0; 1; 2; 3]
    ∧ length (output_buffer (mem s')) = length (of_Z <$> [9; 9; 9; 9; 9; 9; 9])
    ∧ (∀ (j : nat) (x : float32),
         Z.of_nat j < 5 → Z.of_nat j `div` 4 ∈ [1] →
         (of_Z <$> [-2; -1; 0; 1; 2; 3]) !! j = Some x →
         output_buffer (mem s') !! j = Some (@lane_of float32 f32 ReLU x))
    ∧ (∀ j : nat,
         5 ≤ Z.of_nat j ∨ Z.of_nat j `div` 4 ∉ [1] →
         output_buffer (mem s') !! j = (of_Z <$> [9; 9; 9; 9; 9; 9; 9]) !! j).
Proof.
  apply (@partial_launch_frame float32 f32 ReLU 5 4 [1]);
    [reflexivity|in_units|cbn; lia|cbn; lia].
Defined.

Lemma distinct_units_write_distinct_indices_witness :
  ∃ s',
    @run_units float32 (@Int32.kernel_of float32 f32 Tanh InputBuffer OutputBuffer 5 2) [2; 0]
      (Machine (Memory (of_Z <$> [1; 2; 3; 4; 5]) (of_Z <$> [0; 0; 0; 0; 0])) [])
    = Some s'
    ∧ NoDup (stores_of (trace s'))
    ∧ (∀ j, j ∈ loads_of (trace s') ∨ j ∈ stores_of (trace s') →
            0 ≤ j < 5 ∧ j `div` 2 ∈ [2; 0]).
Proof.
  apply (@distinct_units_write_distinct_indices float32 f32 Tanh 5 2 [2; 0]);
    [reflexivity|in_units| |cbn; lia|cbn; lia].
  apply NoDup_cons. split; [|apply NoDup_cons; split; [apply not_elem_of_nil|constructor]].
  intros Hin. apply list_elem_of_singleton in Hin. lia.
Defined.

Lemma in_place_rerun_applies_twice_witness :
  ∃ s',
    @run_units float32 (@Int32.kernel_of float32 f32 Softsign OutputBuffer OutputBuffer 3 2)
      [0; 0] (Machine (Memory [] (of_Z <$> [1; 2; 3])) []) = Some s'
    ∧ input_buffer (mem s') = []
    ∧ length (output_buffer (mem s')) = length (of_Z <$> [1; 2; 3])
    ∧ (∀ (j : nat) (x : float32),
         0 * 2 ≤ Z.of_nat j < 0 * 2 + 2 → Z.of_nat j < 3 →
         (of_Z <$> [1; 2; 3]) !! j = Some x →
         output_buffer (mem s') !! j
         = Some (@lane_of float32 f32 Softsign (@lane_of float32 f32 Softsign x)))
    ∧ (∀ j : nat,
         ¬ (0 * 2 ≤ Z.of_nat j < 0 * 2 + 2 ∧ Z.of_nat j < 3) →
         output_buffer (mem s') !! j = (of_Z <$> [1; 2; 3]) !! j).
Proof.
  apply (@in_place_rerun_applies_twice float32 f32 Softsign 3 2 0);
    [reflexivity|lia|lia|cbn; lia].
Defined.

End Int32Instances.
